(** * Payload admin UI: component-descriptor parser and list controls

    A shallow embedding of two units of the repository:

    - [parsePayloadComponent] (the descriptor parser), which turns a
      string or object descriptor into a [{exportName, path}] pair;
    - the [ListControls] React component, of which the drawer-visibility
      state, its click handlers, its initial value and the search-label
      effect are modelled.

    JavaScript strings are sequences of code units; they are modelled by
    [string], whose characters play the role of code units.  Indices are
    [Z], as [lastIndexOf] answers [-1] when nothing is found. *)

From Stdlib Require Import ZArith Bool List Lia.
From Stdlib Require Import Strings.Ascii Strings.String.
Import ListNotations.

Open Scope string_scope.
Open Scope Z_scope.

(** ** The fragment of JavaScript the two units use *)

Module JS.

(** The values a descriptor field can hold in the parser. *)
Inductive value : Type :=
| undefined
| null
| str (s : string).

(** Outcome of evaluating an expression: a value or a thrown error. *)
Inductive exn : Type :=
| TypeError.

Inductive completion (A : Type) : Type :=
| Normal (a : A)
| Throw (e : exn).

Arguments Normal {A} a.
Arguments Throw {A} e.

Definition bind {A B : Type} (c : completion A) (k : A -> completion B)
  : completion B :=
  match c with
  | Normal a => k a
  | Throw e => Throw e
  end.

(** ToBoolean on [value]: only non-empty strings are truthy. *)
Definition truthy (v : value) : bool :=
  match v with
  | undefined => false
  | null => false
  | str s => negb (String.eqb s "")
  end.

(** [v === undefined || v === null], the test behind [??]. *)
Definition nullish (v : value) : bool :=
  match v with
  | undefined | null => true
  | str _ => false
  end.

(** ToString on [value], as a template literal applies it to [${v}]. *)
Definition to_string (v : value) : string :=
  match v with
  | undefined => "undefined"
  | null => "null"
  | str s => s
  end.

(** [String.prototype.lastIndexOf(searchString)]: the greatest index at
    which [searchString] occurs, [-1] when there is none.  The scan
    walks the string once, remembering the latest match. *)
Fixpoint lastIndexOf_from (searchString s : string) (i found : Z) : Z :=
  let found' := if prefix searchString s then i else found in
  match s with
  | EmptyString => found'
  | String _ s' => lastIndexOf_from searchString s' (i + 1) found'
  end.

Definition lastIndexOf (s searchString : string) : Z :=
  lastIndexOf_from searchString s 0 (-1).

(** [String.prototype.substring(indexStart, indexEnd)]: both indices are
    clamped to [0 .. length], swapped when out of order; an omitted
    [indexEnd] stands for the length. *)
Definition clamp (len i : Z) : Z := Z.min (Z.max i 0) len.

Definition substring (s : string) (indexStart : Z) (indexEnd : option Z)
  : string :=
  let len := Z.of_nat (String.length s) in
  let intStart := clamp len indexStart in
  let intEnd :=
    match indexEnd with
    | Some e => clamp len e
    | None => len
    end in
  let from := Z.min intStart intEnd in
  let to := Z.max intStart intEnd in
  String.substring (Z.to_nat from) (Z.to_nat (to - from)) s.

(** [v?.m(...)]: [undefined] (here [None]) when [v] is nullish, the
    method's answer otherwise. *)
Definition optional_call {A : Type} (v : value) (m : string -> A)
  : option A :=
  match v with
  | undefined | null => None
  | str s => Some (m s)
  end.

(** [e ?? d] on the answer of an optional call. *)
Definition nullish_coalesce {A : Type} (e : option A) (d : A) : A :=
  match e with
  | Some a => a
  | None => d
  end.

(** [v.m(...)] without the guard: calling a method of [undefined] or
    [null] throws. *)
Definition method_call {A : Type} (v : value) (m : string -> A)
  : completion A :=
  match v with
  | undefined | null => Throw TypeError
  | str s => Normal (m s)
  end.

End JS.

Declare Scope js_scope.
Delimit Scope js_scope with js.
Notation "x <- c ;; k" := (JS.bind c (fun x => k))
  (at level 61, c at next level, right associativity) : js_scope.
Open Scope js_scope.

(** ** The descriptor parser *)

Module Parser.
Import JS.

(** The object form of a descriptor: [path] and the optional
    [exportName].  A field that is missing reads as [undefined]. *)
Module Raw.
Record t : Type := mk { path : value; exportName : value }.
End Raw.

(** What the parser can be handed.  The parameter type is imported from
    [config/types.js], which is not among the sources; upstream it reads
    [false | RawPayloadComponent | string], so the boolean [false] is an
    input beside the string and object forms.  The file is compiled
    without strict null checks, so [null] and [undefined] inhabit the
    type as well. *)
Inductive PayloadComponent : Type :=
| PCundefined
| PCnull
| PCfalse
| PCstring (s : string)
| PCobject (o : Raw.t).

(** The pair the parser returns. *)
Record Resolved : Type := mkResolved { exportName : value; path : value }.

Definition typeof (c : PayloadComponent) : string :=
  match c with
  | PCundefined => "undefined"
  | PCnull => "object"
  | PCfalse => "boolean"
  | PCstring _ => "string"
  | PCobject _ => "object"
  end.

(** ToBoolean on a descriptor. *)
Definition to_boolean (c : PayloadComponent) : bool :=
  match c with
  | PCundefined => false
  | PCnull => false
  | PCfalse => false
  | PCstring s => negb (String.eqb s "")
  | PCobject _ => true
  end.

(** Property reads [c.path] and [c.exportName]: they throw on [null] and
    [undefined] and answer [undefined] on a string or boolean
    primitive. *)
Definition get_path (c : PayloadComponent) : completion value :=
  match c with
  | PCundefined | PCnull => Throw TypeError
  | PCfalse | PCstring _ => Normal undefined
  | PCobject o => Normal (Raw.path o)
  end.

Definition get_exportName (c : PayloadComponent) : completion value :=
  match c with
  | PCundefined | PCnull => Throw TypeError
  | PCfalse | PCstring _ => Normal undefined
  | PCobject o => Normal (Raw.exportName o)
  end.

(** [parsePayloadComponent]; the answer [None] is the source's [null].
    The first bind is
    [typeof PayloadComponent === 'string' ? PayloadComponent
     : PayloadComponent.path]; the pair bound to [split] holds the two
    variables [exportName] and [path] after the [if (lastHashIndex > 0)]
    block. *)
Definition parsePayloadComponent (PayloadComponent : PayloadComponent)
  : completion (option Resolved) :=
  if negb (to_boolean PayloadComponent) then Normal None
  else
    pathAndMaybeExport <-
      (match PayloadComponent with
       | PCstring s => Normal (str s)
       | _ => get_path PayloadComponent
       end) ;;
    let path := pathAndMaybeExport in
    let exportName := str "default" in
    let lastHashIndex :=
      nullish_coalesce
        (optional_call pathAndMaybeExport (fun s => lastIndexOf s "#"))
        (-1) in
    split <-
      (if 0 <? lastHashIndex then
         exportName' <-
           method_call pathAndMaybeExport
             (fun s => substring s (lastHashIndex + 1) None) ;;
         path' <-
           method_call pathAndMaybeExport
             (fun s => substring s 0 (Some lastHashIndex)) ;;
         Normal (str exportName', str path')
       else Normal (exportName, path)) ;;
    let '(exportName, path) := split in
    exportName <-
      (if String.eqb (typeof PayloadComponent) "object" then
         field <- get_exportName PayloadComponent ;;
         Normal (if truthy field then field else exportName)
       else Normal exportName) ;;
    Normal (Some {| exportName := exportName; path := path |}).

(** Descriptions of inputs used by the statements below. *)

(** [s] has a ['#'] at some index strictly greater than [0]. *)
Definition hash_after_first (s : string) : Prop :=
  exists i : nat, (0 < i)%nat /\ String.get i s = Some "#"%char.

(** [s] has no ['#'] at all. *)
Definition hash_free (s : string) : Prop :=
  forall i : nat, String.get i s <> Some "#"%char.

(** [s] has no ['#'] at an index strictly greater than [0]. *)
Definition no_hash_after_first (s : string) : Prop :=
  forall i : nat, (0 < i)%nat -> String.get i s <> Some "#"%char.

(** The descriptor is absent: [null] or [undefined]. *)
Definition absent (c : PayloadComponent) : Prop :=
  c = PCnull \/ c = PCundefined.

End Parser.

(** ** The list controls *)

Module ListControls.

(** *** Drawer visibility *)

(** The three drawers; [where_] is the source's ['where'] (a reserved
    word here).  The state [visibleDrawer] holds one of them or
    [undefined], which is [None]. *)
Inductive Drawer : Type :=
| columns
| sort
| where_.

Definition Drawer_eqb (a b : Drawer) : bool :=
  match a, b with
  | columns, columns => true
  | sort, sort => true
  | where_, where_ => true
  | _, _ => false
  end.

(** [visibleDrawer === d] *)
Definition strict_eq (visibleDrawer : option Drawer) (d : Drawer) : bool :=
  match visibleDrawer with
  | Some v => Drawer_eqb v d
  | None => false
  end.

(** The props that decide which toggles and regions are rendered. *)
Record Props : Type := mkProps { enableColumns : bool; enableSort : bool }.

(** The destructuring defaults: [enableColumns = true],
    [enableSort = false]. *)
Definition defaultProps : Props :=
  {| enableColumns := true; enableSort := false |}.

(** The three [onClick] handlers: each computes the argument it hands to
    [setVisibleDrawer] from the [visibleDrawer] of the current render. *)
Definition onClick_columns (visibleDrawer : option Drawer) : option Drawer :=
  if negb (strict_eq visibleDrawer columns) then Some columns else None.

Definition onClick_where (visibleDrawer : option Drawer) : option Drawer :=
  if negb (strict_eq visibleDrawer where_) then Some where_ else None.

Definition onClick_sort (visibleDrawer : option Drawer) : option Drawer :=
  if negb (strict_eq visibleDrawer sort) then Some sort else None.

Definition onClick (d : Drawer) : option Drawer -> option Drawer :=
  match d with
  | columns => onClick_columns
  | where_ => onClick_where
  | sort => onClick_sort
  end.

(** The toggles that are rendered, in document order. *)
Definition toggles (p : Props) : list Drawer :=
  (if enableColumns p then [columns] else [])
    ++ [where_]
    ++ (if enableSort p then [sort] else []).

(** The [height] prop of an [AnimateHeight] region. *)
Inductive Height : Type :=
| auto
| px (n : Z).

Definition height_of (visibleDrawer : option Drawer) (d : Drawer) : Height :=
  if strict_eq visibleDrawer d then auto else px 0.

(** The collapsible regions that are rendered, with their heights. *)
Definition regions (p : Props) (visibleDrawer : option Drawer)
  : list (Drawer * Height) :=
  (if enableColumns p then [(columns, height_of visibleDrawer columns)]
   else [])
    ++ [(where_, height_of visibleDrawer where_)]
    ++ (if enableSort p then [(sort, height_of visibleDrawer sort)] else []).

Definition is_open (r : Drawer * Height) : bool :=
  match snd r with
  | auto => true
  | px _ => false
  end.

(** How many regions are open in a render. *)
Definition open_count (p : Props) (visibleDrawer : option Drawer) : nat :=
  List.length (List.filter is_open (regions p visibleDrawer)).

(** One user action: a click on a toggle that is rendered. *)
Inductive click (p : Props) : option Drawer -> option Drawer -> Prop :=
| click_toggle (d : Drawer) (visibleDrawer : option Drawer) :
    In d (toggles p) -> click p visibleDrawer (onClick d visibleDrawer).

(** The states a panel reaches from [init] by clicks. *)
Inductive reachable (p : Props) (init : option Drawer)
  : option Drawer -> Prop :=
| reach_init : reachable p init init
| reach_click (s s' : option Drawer) :
    reachable p init s -> click p s s' -> reachable p init s'.

(** *** Mount: the initial drawer *)

Section Mount.

(** The type of [where] expressions and the validator
    [validateWhereQuery] are imported by the component; they are taken
    as given. *)
Variable Where : Type.
Variable validateWhereQuery : option Where -> bool.

(** The part of the list query the component reads. *)
Record Query : Type := mkQuery { where_param : option Where }.

(** [query?.where] *)
Definition query_where (query : option Query) : option Where :=
  match query with
  | Some q => where_param q
  | None => None
  end.

Definition shouldInitializeWhereOpened (query : option Query) : bool :=
  validateWhereQuery (query_where query).

(** The argument of [useState]: the value [visibleDrawer] has on
    mount. *)
Definition initialVisibleDrawer (query : option Query) : option Drawer :=
  if shouldInitializeWhereOpened query then Some where_ else None.

(** The first effect: it keeps the ref [hasWhereParam] in step with
    [query?.where] and leaves the drawer alone. *)
Definition is_some {A : Type} (o : option A) : bool :=
  match o with
  | Some _ => true
  | None => false
  end.

Definition effect_where (query : option Query)
  (state : option Drawer * bool) : option Drawer * bool :=
  let '(visibleDrawer, hasWhereParam) := state in
  if hasWhereParam && negb (is_some (query_where query))
  then (visibleDrawer, false)
  else if is_some (query_where query) then (visibleDrawer, true)
  else (visibleDrawer, hasWhereParam).

End Mount.

(** *** The search label *)

(** The values a field's [label] can hold, and what is handed to
    [getTranslation]: a string, a record of translations per language,
    a function, [false], [null] or [undefined]. *)
Inductive Label : Type :=
| Lundefined
| Lnull
| Lfalse
| Lstring (s : string)
| Lrecord (translations : list (string * string))
| Lfunction (id : nat).

Definition Label_truthy (l : Label) : bool :=
  match l with
  | Lundefined | Lnull | Lfalse => false
  | Lstring s => negb (String.eqb s "")
  | Lrecord _ | Lfunction _ => true
  end.

Definition Label_typeof (l : Label) : string :=
  match l with
  | Lundefined => "undefined"
  | Lnull => "object"
  | Lfalse => "boolean"
  | Lstring _ => "string"
  | Lrecord _ => "object"
  | Lfunction _ => "function"
  end.

(** A field of the collection: [None] says the key is not in the
    object (['label' in field] is false). *)
Record Field : Type := mkField { label : option Label; name : option string }.

(** [Array.prototype.reduce] with the index handed to the callback. *)
Fixpoint reduce_from {A B : Type} (callback : B -> A -> Z -> B)
  (array : list A) (i : Z) (accumulator : B) : B :=
  match array with
  | [] => accumulator
  | x :: rest => reduce_from callback rest (i + 1) (callback accumulator x i)
  end.

Definition reduce {A B : Type} (callback : B -> A -> Z -> B)
  (array : list A) (initialValue : B) : B :=
  reduce_from callback array 0 initialValue.

Section SearchLabel.

(** The translation provider: [t key vars] and [getTranslation]; the
    active locale [i18n] is an argument of the latter.  Both are imported
    and taken as given.  [getTranslation] can answer [undefined], as it
    does for a record without an entry; the component guards that with
    [??] in one place and interpolates the answer in the others. *)
Variable I18n : Type.
Variable t : string -> list (string * JS.value) -> string.
Variable getTranslation : Label -> I18n -> JS.value.

(** ['label' in titleField && (typeof label is string or object)
     ? titleField.label : 'name' in titleField ? titleField.name : null] *)
Definition titleLabel (titleField : Field) : Label :=
  match label titleField with
  | Some l =>
      if String.eqb (Label_typeof l) "string"
         || String.eqb (Label_typeof l) "object"
      then l
      else match name titleField with
           | Some n => Lstring n
           | None => Lnull
           end
  | None =>
      match name titleField with
      | Some n => Lstring n
      | None => Lnull
      end
  end.

(** [(titleField && getTranslation(..., i18n)) ?? 'ID']: a missing title
    field and a nullish answer of [getTranslation] both give ['ID']. *)
Definition searchLabel (titleField : option Field) (i18n : I18n) : string :=
  match titleField with
  | Some f =>
      let translated := getTranslation (titleLabel f) i18n in
      if JS.nullish translated then "ID" else JS.to_string translated
  | None => "ID"
  end.

(** ['label' in field && field.label ? field.label
     : 'name' in field ? field.name : null] *)
Definition fieldLabel (field : Field) : Label :=
  match label field with
  | Some l =>
      if Label_truthy l then l
      else match name field with
           | Some n => Lstring n
           | None => Lnull
           end
  | None =>
      match name field with
      | Some n => Lstring n
      | None => Lnull
      end
  end.

(** The callback of the [reduce] in the second effect. *)
Definition placeholder (listSearchableFields : list Field) (i18n : I18n)
  (placeholderText : string) (field : Field) (i : Z) : string :=
  let label := fieldLabel field in
  if i =? 0 then
    t "general:searchBy" [("label", getTranslation label i18n)]
  else if i =? Z.of_nat (List.length listSearchableFields) - 1 then
    placeholderText ++ " " ++ t "general:or" [] ++ " "
      ++ JS.to_string (getTranslation label i18n)
  else
    placeholderText ++ ", " ++ JS.to_string (getTranslation label i18n).

(** The second effect: the value it stores in
    [searchLabelTranslated.current].  [listSearchableFields] is [None]
    when [getTextFieldsToBeSearched] answers [undefined]. *)
Definition searchLabelTranslated (listSearchableFields : option (list Field))
  (titleField : option Field) (i18n : I18n) : string :=
  match listSearchableFields with
  | Some fields =>
      if 0 <? Z.of_nat (List.length fields) then
        reduce (placeholder fields i18n) fields ""
      else
        t "general:searchBy"
          [("label", getTranslation (Lstring (searchLabel titleField i18n)) i18n)]
  | None =>
      t "general:searchBy"
        [("label", getTranslation (Lstring (searchLabel titleField i18n)) i18n)]
  end.

(** The labels in between, as the specification words them: each one
    appended behind a comma separator. *)
Fixpoint commaSeparated (i18n : I18n) (middle : list Field) : string :=
  match middle with
  | [] => ""
  | f :: rest =>
      ", " ++ JS.to_string (getTranslation (fieldLabel f) i18n)
        ++ commaSeparated i18n rest
  end.

End SearchLabel.

(** *** The refs and the rendered elements *)

Section Refs.

Variable Where : Type.

(** [useRef(Boolean(query?.where))]: the first value of the ref
    [hasWhereParam]. *)
Definition initialHasWhereParam (query : option (Query Where)) : bool :=
  is_some (query_where Where query).

(** The ref after the first effect has run for each query of [queries],
    oldest first. *)
Definition hasWhereParam_after (queries : list (option (Query Where)))
  (hasWhereParam : bool) : bool :=
  List.fold_left
    (fun current query =>
       snd (effect_where Where query (@None Drawer, current)))
    queries hasWhereParam.

End Refs.

Definition baseClass : string := "list-controls".

(** The [direction] prop of a [ChevronIcon]. *)
Inductive Direction : Type :=
| up
| down.

(** What a toggle [Pill] is rendered with; [setsVisibleDrawer] is the
    argument its [onClick] hands to [setVisibleDrawer], and
    [iconDirection] is [None] where the icon is given no direction. *)
Record PillProps : Type := mkPill {
  ariaControls : string;
  ariaExpanded : bool;
  pillClassName : string;
  iconDirection : option Direction;
  setsVisibleDrawer : option Drawer
}.

(** What a collapsible [AnimateHeight] region is rendered with. *)
Record RegionProps : Type := mkRegion {
  regionClassName : string;
  regionHeight : Height;
  regionId : string
}.

(** The toggle pills of a render, in document order. *)
Definition renderPills (p : Props) (visibleDrawer : option Drawer)
  : list PillProps :=
  (if enableColumns p then
     [ {| ariaControls := baseClass ++ "-columns";
          ariaExpanded := strict_eq visibleDrawer columns;
          pillClassName := baseClass ++ "__toggle-columns";
          iconDirection :=
            Some (if strict_eq visibleDrawer columns then up else down);
          setsVisibleDrawer :=
            if negb (strict_eq visibleDrawer columns) then Some columns
            else None |} ]
   else [])
    ++ [ {| ariaControls := baseClass ++ "-where";
            ariaExpanded := strict_eq visibleDrawer where_;
            pillClassName := baseClass ++ "__toggle-where";
            iconDirection :=
              Some (if strict_eq visibleDrawer where_ then up else down);
            setsVisibleDrawer :=
              if negb (strict_eq visibleDrawer where_) then Some where_
              else None |} ]
    ++ (if enableSort p then
          [ {| ariaControls := baseClass ++ "-sort";
               ariaExpanded := strict_eq visibleDrawer sort;
               pillClassName := baseClass ++ "__toggle-sort";
               iconDirection := None;
               setsVisibleDrawer :=
                 if negb (strict_eq visibleDrawer sort) then Some sort
                 else None |} ]
        else []).

(** The collapsible regions of a render, in document order. *)
Definition renderRegions (p : Props) (visibleDrawer : option Drawer)
  : list RegionProps :=
  (if enableColumns p then
     [ {| regionClassName := baseClass ++ "__columns";
          regionHeight := if strict_eq visibleDrawer columns then auto else px 0;
          regionId := baseClass ++ "-columns" |} ]
   else [])
    ++ [ {| regionClassName := baseClass ++ "__where";
            regionHeight := if strict_eq visibleDrawer where_ then auto else px 0;
            regionId := baseClass ++ "-where" |} ]
    ++ (if enableSort p then
          [ {| regionClassName := baseClass ++ "__sort";
               regionHeight := if strict_eq visibleDrawer sort then auto else px 0;
               regionId := baseClass ++ "-sort" |} ]
        else []).

End ListControls.

Import JS Parser.

(** * Properties of the parser *)

(** ** Strings: the last ['#'] and the two substrings *)

Section HashLemmas.

Lemma prefix_empty (s : string) : prefix "" s = true.
Proof. destruct s; reflexivity. Qed.

Lemma prefix_hash_cons (c : ascii) (s : string) :
  prefix "#" (String c s) = if ascii_dec "#" c then true else false.
Proof.
  change (prefix "#" (String c s))
    with (if ascii_dec "#" c then prefix "" s else false).
  destruct (ascii_dec "#" c); [apply prefix_empty | reflexivity].
Qed.

Lemma hash_free_cons (c : ascii) (s : string) :
  hash_free (String c s) <-> c <> "#"%char /\ hash_free s.
Proof.
  unfold hash_free; split.
  - intros H; split.
    + intros ->. apply (H 0%nat). reflexivity.
    + intros i. apply (H (S i)).
  - intros [Hc Hs] [|i]; simpl.
    + congruence.
    + apply Hs.
Qed.

Lemma hash_free_empty : hash_free "".
Proof. intros i; destruct i; discriminate. Qed.

(** Without a ['#'] the scan keeps the match it came with. *)
Lemma lastIndexOf_from_hash_free (s : string) :
  hash_free s -> forall i found, lastIndexOf_from "#" s i found = found.
Proof.
  induction s as [|c s IH]; intros Hfree i found.
  - reflexivity.
  - apply hash_free_cons in Hfree as [Hc Hs].
    cbn [lastIndexOf_from]. rewrite prefix_hash_cons.
    destruct (ascii_dec "#" c) as [E|_]; [congruence|].
    apply IH, Hs.
Qed.

(** With a last ['#'] after [before], the scan stops on its index. *)
Lemma lastIndexOf_from_split (before after : string) :
  hash_free after ->
  forall i found,
    lastIndexOf_from "#" (before ++ String "#" after) i found
    = i + Z.of_nat (String.length before).
Proof.
  intros Hfree.
  induction before as [|c before IH]; intros i found.
  - cbn [append lastIndexOf_from String.length].
    rewrite prefix_hash_cons.
    destruct (ascii_dec "#" "#") as [_|N]; [|congruence].
    rewrite lastIndexOf_from_hash_free by assumption.
    cbn; lia.
  - cbn [append lastIndexOf_from String.length].
    rewrite IH. lia.
Qed.

Lemma lastIndexOf_split (before after : string) :
  hash_free after ->
  lastIndexOf (before ++ String "#" after) "#"
  = Z.of_nat (String.length before).
Proof.
  intros Hfree. unfold lastIndexOf.
  rewrite lastIndexOf_from_split by assumption. lia.
Qed.

(** When only the first character can be a ['#'], the scan answers [0]
    or [-1]. *)
Lemma lastIndexOf_no_hash_after_first (s : string) :
  no_hash_after_first s -> lastIndexOf s "#" <= 0.
Proof.
  intros Hno. unfold lastIndexOf.
  destruct s as [|c s].
  - cbn. lia.
  - assert (Hs : hash_free s).
    { intros i. apply (Hno (S i)). lia. }
    cbn [lastIndexOf_from]. rewrite prefix_hash_cons.
    rewrite lastIndexOf_from_hash_free by assumption.
    destruct (ascii_dec "#" c); lia.
Qed.

Lemma length_append (a b : string) :
  String.length (a ++ b) = (String.length a + String.length b)%nat.
Proof. induction a as [|c a IH]; cbn; [reflexivity | now rewrite IH]. Qed.

Lemma substring_all (s : string) :
  String.substring 0 (String.length s) s = s.
Proof. induction s as [|c s IH]; cbn; [reflexivity | now rewrite IH]. Qed.

Lemma substring_take (a b : string) :
  String.substring 0 (String.length a) (a ++ b) = a.
Proof.
  induction a as [|c a IH]; cbn.
  - destruct b; reflexivity.
  - now rewrite IH.
Qed.

Lemma substring_drop (a b : string) (m : nat) :
  String.substring (String.length a) m (a ++ b) = String.substring 0 m b.
Proof. induction a as [|c a IH]; cbn; [reflexivity | exact IH]. Qed.

(** [s.substring(0, i)] and [s.substring(i + 1)] at the split index. *)
Lemma substring_before (before after : string) :
  substring (before ++ String "#" after) 0
    (Some (Z.of_nat (String.length before)))
  = before.
Proof.
  unfold substring, clamp. rewrite length_append. cbn [String.length].
  replace (Z.min _ _) with 0 by lia.
  replace (Z.max _ _ - 0) with (Z.of_nat (String.length before)) by lia.
  rewrite Nat2Z.id. apply substring_take.
Qed.

Lemma substring_after (before after : string) :
  substring (before ++ String "#" after)
    (Z.of_nat (String.length before) + 1) None
  = after.
Proof.
  unfold substring, clamp. rewrite length_append. cbn [String.length].
  set (n := String.length before). set (m := String.length after).
  replace (Z.min _ _) with (Z.of_nat (S n)) by lia.
  replace (Z.max _ _ - _) with (Z.of_nat m) by lia.
  rewrite !Nat2Z.id.
  change (String "#" after) with ("#" ++ after).
  replace (before ++ "#" ++ after) with ((before ++ "#") ++ after).
  - replace (S n) with (String.length (before ++ "#")).
    + rewrite substring_drop. apply substring_all.
    + rewrite length_append. cbn. subst n. lia.
  - clear. induction before as [|c b IH]; cbn; [reflexivity | now rewrite IH].
Qed.

(** Every string is free of ['#'] or splits at its last ['#']. *)
Lemma last_hash_decompose (s : string) :
  hash_free s
  \/ exists before after, s = before ++ String "#" after /\ hash_free after.
Proof.
  induction s as [|c s [Hfree | (before & after & -> & Hfree)]].
  - left. apply hash_free_empty.
  - destruct (ascii_dec c "#") as [-> | Hc].
    + right. exists "", s. split; [reflexivity | assumption].
    + left. apply hash_free_cons. split; assumption.
  - right. exists (String c before), after. split; [reflexivity | assumption].
Qed.

Lemma hash_after_first_decompose (s : string) :
  hash_after_first s ->
  exists before after,
    s = before ++ String "#" after /\ before <> "" /\ hash_free after.
Proof.
  intros (i & Hi & Hget).
  destruct s as [|c s]; [destruct i; discriminate|].
  destruct i as [|i]; [lia|]. cbn in Hget.
  destruct (last_hash_decompose s) as [Hfree | (before & after & -> & Hfree)].
  - exfalso. exact (Hfree i Hget).
  - exists (String c before), after.
    split; [reflexivity | split; [discriminate | assumption]].
Qed.

End HashLemmas.

(** ** The parser on its input forms *)

Section ParserLemmas.

Lemma to_boolean_nonempty (s : string) :
  s <> "" -> to_boolean (PCstring s) = true.
Proof.
  intros Hs. cbn. destruct (String.eqb_spec s ""); [contradiction | reflexivity].
Qed.

(** A string descriptor that splits at a last ['#'] behind a non-empty
    prefix. *)
Lemma parse_string_split (before after : string) :
  before <> "" -> hash_free after ->
  parsePayloadComponent (PCstring (before ++ String "#" after))
  = Normal (Some {| exportName := str after; path := str before |}).
Proof.
  intros Hne Hfree.
  assert (Hpos : (0 <? Z.of_nat (String.length before)) = true).
  { destruct before; [contradiction | cbn; reflexivity]. }
  unfold parsePayloadComponent.
  rewrite to_boolean_nonempty by (destruct before; [contradiction | discriminate]).
  cbn [negb bind optional_call nullish_coalesce method_call typeof].
  rewrite lastIndexOf_split by assumption.
  rewrite Hpos.
  rewrite substring_after, substring_before.
  reflexivity.
Qed.

(** A string descriptor without a ['#'] behind its first character. *)
Lemma parse_string_whole (s : string) :
  s <> "" -> no_hash_after_first s ->
  parsePayloadComponent (PCstring s)
  = Normal (Some {| exportName := str "default"; path := str s |}).
Proof.
  intros Hne Hno.
  unfold parsePayloadComponent.
  rewrite to_boolean_nonempty by assumption.
  cbn [negb bind optional_call nullish_coalesce method_call typeof].
  pose proof (lastIndexOf_no_hash_after_first s Hno) as Hle.
  destruct (Z.ltb_spec 0 (lastIndexOf s "#")) as [Hlt|_]; [lia|].
  reflexivity.
Qed.

(** An object descriptor whose [path] splits at a last ['#']: the
    [exportName] field is used when it is truthy, the suffix otherwise. *)
Lemma parse_object_split (before after : string) (field : value) :
  before <> "" -> hash_free after ->
  parsePayloadComponent
    (PCobject (Raw.mk (str (before ++ String "#" after)) field))
  = Normal (Some {| exportName := if truthy field then field else str after;
                    path := str before |}).
Proof.
  intros Hne Hfree.
  assert (Hpos : (0 <? Z.of_nat (String.length before)) = true).
  { destruct before; [contradiction | cbn; reflexivity]. }
  unfold parsePayloadComponent.
  cbn [to_boolean negb get_path Raw.path bind optional_call
       nullish_coalesce method_call].
  rewrite lastIndexOf_split by assumption.
  rewrite Hpos.
  rewrite substring_after, substring_before.
  reflexivity.
Qed.

(** An object descriptor whose [path] is [undefined] or [null]: the
    guarded scan answers [-1] and no method of the path is called. *)
Lemma parse_object_nullish_path (o : Raw.t) :
  Raw.path o = undefined \/ Raw.path o = null ->
  parsePayloadComponent (PCobject o)
  = Normal (Some {| exportName := if truthy (Raw.exportName o)
                                  then Raw.exportName o else str "default";
                    path := Raw.path o |}).
Proof.
  destruct o as [p e]. cbn [Raw.path Raw.exportName].
  intros [-> | ->]; reflexivity.
Qed.

(** The parser throws on no descriptor. *)
Lemma parse_never_throws (c : PayloadComponent) :
  exists r, parsePayloadComponent c = Normal r.
Proof.
  destruct c as [| | |s|[p e]]; try (eexists; reflexivity).
  - unfold parsePayloadComponent.
    destruct (to_boolean (PCstring s)); cbn [negb]; [|eexists; reflexivity].
    cbn [bind optional_call nullish_coalesce method_call typeof].
    destruct (0 <? lastIndexOf s "#"); eexists; reflexivity.
  - unfold parsePayloadComponent.
    cbn [to_boolean negb get_path Raw.path bind].
    destruct p as [| |s]; try (eexists; reflexivity).
    cbn [optional_call nullish_coalesce method_call].
    destruct (0 <? lastIndexOf s "#"); eexists; reflexivity.
Qed.

(** The answer is [null] exactly on the falsy descriptors. *)
Lemma parse_null_iff (c : PayloadComponent) :
  parsePayloadComponent c = Normal None <-> to_boolean c = false.
Proof.
  split.
  - intros H. destruct (to_boolean c) eqn:E; [|reflexivity].
    exfalso. unfold parsePayloadComponent in H. rewrite E in H.
    cbn [negb] in H.
    destruct c as [| | |s|[p e]]; try discriminate.
    + cbn [bind optional_call nullish_coalesce method_call typeof] in H.
      destruct (0 <? lastIndexOf s "#"); discriminate.
    + cbn [get_path Raw.path bind] in H.
      destruct p as [| |s]; try discriminate.
      cbn [optional_call nullish_coalesce method_call] in H.
      destruct (0 <? lastIndexOf s "#"); discriminate.
  - intros E. unfold parsePayloadComponent. rewrite E. reflexivity.
Qed.

End ParserLemmas.

(** ** The examples of the specification *)

Example parse_named :
  parsePayloadComponent (PCstring "a/b/c#Named")
  = Normal (Some {| exportName := str "Named"; path := str "a/b/c" |}).
Proof. reflexivity. Qed.

Example parse_plain :
  parsePayloadComponent (PCstring "a/b/c")
  = Normal (Some {| exportName := str "default"; path := str "a/b/c" |}).
Proof. reflexivity. Qed.

Example parse_leading_hash :
  parsePayloadComponent (PCstring "#leadingHash")
  = Normal (Some {| exportName := str "default"; path := str "#leadingHash" |}).
Proof. reflexivity. Qed.

Example parse_object_suffix :
  parsePayloadComponent (PCobject (Raw.mk (str "a/b#X") undefined))
  = Normal (Some {| exportName := str "X"; path := str "a/b" |}).
Proof. reflexivity. Qed.

Example parse_object_override :
  parsePayloadComponent (PCobject (Raw.mk (str "a/b#X") (str "Y")))
  = Normal (Some {| exportName := str "Y"; path := str "a/b" |}).
Proof. reflexivity. Qed.

(** ** The claims about the parser *)

(** Where the export name can be empty: only when the scanned path ends in
    a ['#'] behind a non-empty prefix and no truthy [exportName] field
    replaces the empty suffix. *)
Lemma exportName_empty_only_after_trailing_hash
  (c : PayloadComponent) (r : Resolved) :
  parsePayloadComponent c = Normal (Some r) ->
  exportName r = str "" ->
  exists before : string, before <> "" /\
    (c = PCstring (before ++ "#")
     \/ exists field, truthy field = false
                      /\ c = PCobject (Raw.mk (str (before ++ "#")) field)).
Proof.
  assert (Hcases : forall s, no_hash_after_first s \/
            exists before after,
              s = before ++ String "#" after /\ before <> "" /\ hash_free after).
  { intros s.
    destruct (last_hash_decompose s) as [Hfree | (before & after & -> & Hfree)].
    - left. intros i _. apply Hfree.
    - destruct before as [|b before].
      + left. intros [|i] Hi; [lia|]. apply (Hfree i).
      + right. exists (String b before), after.
        split; [reflexivity | split; [discriminate | assumption]]. }
  intros Hparse Hempty.
  destruct c as [| | |s|[p field]]; try discriminate.
  - destruct (String.eqb_spec s "") as [-> | Hne]; [discriminate|].
    destruct (Hcases s) as [Hno | (before & after & -> & Hb & Hfree)].
    + rewrite parse_string_whole in Hparse by assumption.
      injection Hparse as <-. discriminate.
    + rewrite parse_string_split in Hparse by assumption.
      injection Hparse as <-. cbn in Hempty. injection Hempty as ->.
      exists before. split; [assumption | left; reflexivity].
  - destruct p as [| |s].
    + rewrite parse_object_nullish_path in Hparse by (left; reflexivity).
      injection Hparse as <-. cbn in Hempty.
      destruct field as [| |e]; try discriminate.
      cbn in Hempty. destruct (String.eqb_spec e ""); cbn in Hempty;
        [discriminate | congruence].
    + rewrite parse_object_nullish_path in Hparse by (right; reflexivity).
      injection Hparse as <-. cbn in Hempty.
      destruct field as [| |e]; try discriminate.
      cbn in Hempty. destruct (String.eqb_spec e ""); cbn in Hempty;
        [discriminate | congruence].
    + destruct (Hcases s) as [Hno | (before & after & -> & Hb & Hfree)].
      * exfalso. unfold parsePayloadComponent in Hparse.
        cbn [to_boolean negb get_path Raw.path bind optional_call
             nullish_coalesce method_call] in Hparse.
        pose proof (lastIndexOf_no_hash_after_first s Hno) as Hle.
        destruct (Z.ltb_spec 0 (lastIndexOf s "#")) as [Hlt|_]; [lia|].
        cbn in Hparse. injection Hparse as <-. cbn in Hempty.
        destruct field as [| |e]; try discriminate.
        cbn in Hempty. destruct (String.eqb_spec e ""); cbn in Hempty;
          [discriminate | congruence].
      * rewrite parse_object_split in Hparse by assumption.
        injection Hparse as <-. cbn in Hempty.
        exists before. split; [assumption|]. right. exists field.
        destruct (truthy field) eqn:Ht.
        -- exfalso. subst field. cbn in Ht. discriminate.
        -- injection Hempty as ->. split; reflexivity.
Qed.


(** C2: a string with a ['#'] at an index strictly greater than [0] is split
    at its last ['#']: the path is everything before it, the export name
    everything after it. *)
Theorem C2_string_split_at_last_hash (s : string) :
  hash_after_first s ->
  exists before after : string,
    s = before ++ "#" ++ after
    /\ before <> ""
    /\ hash_free after
    /\ parsePayloadComponent (PCstring s)
       = Normal (Some {| exportName := str after; path := str before |}).
Proof.
  intros H.
  destruct (hash_after_first_decompose s H) as (before & after & -> & Hne & Hfree).
  exists before, after.
  repeat split; try assumption.
  apply parse_string_split; assumption.
Qed.

Lemma C2_string_split_at_last_hash_witness :
  hash_after_first "a/b/c#Named"
  /\ exists before after : string,
       "a/b/c#Named" = before ++ "#" ++ after
       /\ before <> ""
       /\ hash_free after
       /\ parsePayloadComponent (PCstring "a/b/c#Named")
          = Normal (Some {| exportName := str after; path := str before |}).
Proof.
  assert (H : hash_after_first "a/b/c#Named").
  { exists 5%nat. split; [lia | reflexivity]. }
  split; [exact H | exact (C2_string_split_at_last_hash "a/b/c#Named" H)].
Defined.

(** C3, as stated, fails: an [exportName] field that is present but empty
    does not win over the suffix parsed out of [path].  The object
    [{path: "a/b#X", exportName: ""}] carries the field, yet the result
    keeps the suffix ["X"]. *)
Lemma C3_present_but_empty_field_does_not_win :
  ~ (forall (before after : string) (field : value),
        before <> "" -> hash_free after ->
        field <> undefined -> field <> null ->
        parsePayloadComponent
          (PCobject (Raw.mk (str (before ++ "#" ++ after)) field))
        = Normal (Some {| exportName := field; path := str before |})).
Proof.
  intros H.
  specialize (H "a/b" "X" (str "")).
  assert (Hfree : hash_free "X").
  { intros [|[|i]]; discriminate. }
  specialize (H ltac:(discriminate) Hfree ltac:(discriminate) ltac:(discriminate)).
  cbv in H. discriminate H.
Qed.

(** C3, amended: for an object whose [path] has a ['#'] suffix, the path is
    returned with the suffix stripped; a non-empty [exportName] field wins
    over the suffix, while an empty, [null] or [undefined] field leaves the
    suffix as the export name. *)
Theorem C3_object_nonempty_field_overrides_suffix
  (before after : string) (field : value) :
  before <> "" -> hash_free after ->
  (forall name : string, field = str name -> name <> "" ->
     parsePayloadComponent
       (PCobject (Raw.mk (str (before ++ "#" ++ after)) field))
     = Normal (Some {| exportName := str name; path := str before |}))
  /\ (field = str "" \/ field = null \/ field = undefined ->
      parsePayloadComponent
        (PCobject (Raw.mk (str (before ++ "#" ++ after)) field))
      = Normal (Some {| exportName := str after; path := str before |})).
Proof.
  intros Hne Hfree.
  change (before ++ "#" ++ after) with (before ++ String "#" after).
  rewrite parse_object_split by assumption.
  split.
  - intros name -> Hname. cbn.
    destruct (String.eqb_spec name ""); [contradiction | reflexivity].
  - intros [-> | [-> | ->]]; reflexivity.
Qed.

Lemma C3_object_nonempty_field_overrides_suffix_witness :
  ("a/b" <> "" /\ hash_free "X")
  /\ parsePayloadComponent (PCobject (Raw.mk (str "a/b#X") (str "Y")))
     = Normal (Some {| exportName := str "Y"; path := str "a/b" |}).
Proof.
  assert (Hne : "a/b" <> "") by discriminate.
  assert (Hfree : hash_free "X").
  { intros [|[|i]]; discriminate. }
  split; [split; assumption|].
  apply (proj1 (C3_object_nonempty_field_overrides_suffix
                  "a/b" "X" (str "Y") Hne Hfree) "Y");
    [reflexivity | discriminate].
Defined.

(** C4, as stated, fails: the absent descriptor is not the only input on
    which the parser answers [null].  The empty string is neither [null]
    nor [undefined] and is answered with [null] as well. *)
Lemma C4_null_answer_not_only_for_absent :
  ~ (parsePayloadComponent PCnull = Normal None
     /\ parsePayloadComponent PCundefined = Normal None
     /\ forall c, parsePayloadComponent c = Normal None -> absent c).
Proof.
  intros (_ & _ & H).
  destruct (H (PCstring "") eq_refl) as [E | E]; discriminate E.
Qed.

(** C4, amended: the parser answers [null] on [null] and on [undefined];
    it answers [null] exactly on the falsy descriptors, which are [null],
    [undefined], [false] and the empty string; on every other descriptor
    it returns a pair, and it throws on none. *)
Theorem C4_null_exactly_on_falsy_descriptors :
  parsePayloadComponent PCnull = Normal None
  /\ parsePayloadComponent PCundefined = Normal None
  /\ (forall c, parsePayloadComponent c = Normal None
                <-> (absent c \/ c = PCfalse \/ c = PCstring ""))
  /\ (forall c, exists r, parsePayloadComponent c = Normal r).
Proof.
  split; [reflexivity|]. split; [reflexivity|]. split.
  - intros c. rewrite parse_null_iff. unfold absent. split.
    + destruct c as [| | |s|o]; cbn; intros H; try discriminate H; auto.
      destruct (String.eqb_spec s ""); [subst; auto | discriminate H].
    + intros [[-> | ->] | [-> | ->]]; reflexivity.
  - apply parse_never_throws.
Qed.

(** C5: a non-empty string with no ['#'] at an index strictly greater than
    [0] is returned whole as the path, with ["default"] as export name. *)
Theorem C5_string_without_separator (s : string) :
  s <> "" -> no_hash_after_first s ->
  parsePayloadComponent (PCstring s)
  = Normal (Some {| exportName := str "default"; path := str s |}).
Proof. apply parse_string_whole. Qed.

Lemma C5_string_without_separator_witness :
  ("#leadingHash" <> "" /\ no_hash_after_first "#leadingHash")
  /\ parsePayloadComponent (PCstring "#leadingHash")
     = Normal (Some {| exportName := str "default";
                       path := str "#leadingHash" |}).
Proof.
  assert (Hne : "#leadingHash" <> "") by discriminate.
  assert (Hno : no_hash_after_first "#leadingHash").
  { intros i Hi.
    do 13 (destruct i as [|i]; [first [lia | discriminate]|]).
    discriminate. }
  split; [split; assumption|].
  exact (C5_string_without_separator "#leadingHash" Hne Hno).
Defined.

(** C9: the empty string is answered with [null], like an absent
    descriptor, and not with [{path: "", exportName: "default"}]. *)
Theorem C9_empty_string_gives_null :
  parsePayloadComponent (PCstring "") = Normal None
  /\ parsePayloadComponent (PCstring "")
     <> Normal (Some {| exportName := str "default"; path := str "" |}).
Proof. split; [reflexivity | discriminate]. Qed.

(** C10, as stated, fails: for an object whose [path] is [null] the result
    carries that [null] as its path, not [undefined]. *)
Lemma C10_null_path_is_not_turned_into_undefined :
  ~ (forall o : Raw.t,
        Raw.path o = undefined \/ Raw.path o = null ->
        parsePayloadComponent (PCobject o)
        = Normal (Some {| exportName := if truthy (Raw.exportName o)
                                        then Raw.exportName o
                                        else str "default";
                          path := undefined |})).
Proof.
  intros H.
  specialize (H (Raw.mk null undefined) (or_intror eq_refl)).
  discriminate H.
Qed.

(** C10, amended: for an object whose [path] is [undefined] or [null] the
    parser does not throw; the result's path is the field's own value
    ([undefined] stays [undefined], [null] stays [null]) and its export
    name is ["default"], or the [exportName] field when that is a non-empty
    string. *)
Theorem C10_object_without_path (o : Raw.t) :
  Raw.path o = undefined \/ Raw.path o = null ->
  parsePayloadComponent (PCobject o)
  = Normal (Some {| exportName := if truthy (Raw.exportName o)
                                  then Raw.exportName o
                                  else str "default";
                    path := Raw.path o |}).
Proof. apply parse_object_nullish_path. Qed.

Lemma C10_object_without_path_witness :
  (Raw.path (Raw.mk undefined (str "Y")) = undefined
   \/ Raw.path (Raw.mk undefined (str "Y")) = null)
  /\ parsePayloadComponent (PCobject (Raw.mk undefined (str "Y")))
     = Normal (Some {| exportName := str "Y"; path := undefined |}).
Proof.
  split; [left; reflexivity|].
  exact (C10_object_without_path (Raw.mk undefined (str "Y"))
           (or_introl eq_refl)).
Defined.

(** * Properties of the list controls *)

Import ListControls.

(** ** Drawer toggles *)

Section Drawers.

Lemma Drawer_eqb_spec (a b : Drawer) : reflect (a = b) (Drawer_eqb a b).
Proof. destruct a, b; constructor; congruence. Qed.

Lemma strict_eq_true (s : option Drawer) (d : Drawer) :
  strict_eq s d = true <-> s = Some d.
Proof.
  destruct s as [v|]; cbn.
  - destruct (Drawer_eqb_spec v d); split; congruence.
  - split; discriminate.
Qed.

(** A click on the toggle of [d] opens [d], unless [d] is the open
    drawer, which it closes. *)
Lemma onClick_other (d : Drawer) (s : option Drawer) :
  s <> Some d -> onClick d s = Some d.
Proof.
  intros Hs.
  assert (E : strict_eq s d = false).
  { destruct (strict_eq s d) eqn:E; [|reflexivity].
    apply strict_eq_true in E. contradiction. }
  destruct d; cbn; unfold onClick_columns, onClick_where, onClick_sort;
    rewrite E; reflexivity.
Qed.

Lemma onClick_same (d : Drawer) : onClick d (Some d) = None.
Proof. destruct d; reflexivity. Qed.

(** A render shows at most one open region. *)
Lemma open_count_le_1 (p : Props) (s : option Drawer) :
  (open_count p s <= 1)%nat.
Proof.
  destruct p as [[|] [|]], s as [[| |]|]; cbn; lia.
Qed.

End Drawers.

(** C6, as stated, fails: two clicks on the same toggle do not close the
    drawers from every state.  When the filter drawer is open, the first
    click closes it and the second opens it again. *)
Lemma C6_two_clicks_from_open_drawer_reopen_it :
  ~ (forall (d : Drawer) (s : option Drawer), onClick d (onClick d s) = None).
Proof.
  intros H. specialize (H where_ (Some where_)). discriminate H.
Qed.

(** C6, amended: a click on the toggle of drawer [d] sets the open drawer to
    [d] when the state is not [d], and to none when it is [d]; so a click on
    another toggle while one drawer is open switches to the new one; two
    clicks on the toggle of [d] end with no drawer open from every state in
    which [d] is not open, and with [d] open again from the state in which
    it is open; and in every state, hence in every state reached by clicks,
    at most one region is open. *)
Theorem C6_radio_toggle (d : Drawer) (s : option Drawer) :
  (s <> Some d -> onClick d s = Some d)
  /\ (s = Some d -> onClick d s = None)
  /\ (forall d', d' <> d -> onClick d' (Some d) = Some d')
  /\ (s <> Some d -> onClick d (onClick d s) = None)
  /\ (s = Some d -> onClick d (onClick d s) = Some d)
  /\ (forall p init s', reachable p init s' -> (open_count p s' <= 1)%nat).
Proof.
  split; [apply onClick_other|].
  split; [intros ->; apply onClick_same|].
  split; [intros d' Hd; apply onClick_other; congruence|].
  split.
  { intros Hs. rewrite (onClick_other d s Hs). apply onClick_same. }
  split.
  { intros ->. rewrite onClick_same. apply onClick_other. discriminate. }
  intros p init s' _. apply open_count_le_1.
Qed.

Lemma C6_radio_toggle_witness :
  (None <> Some where_ /\ Some where_ = Some where_)
  /\ onClick where_ None = Some where_
  /\ onClick where_ (Some where_) = None
  /\ onClick where_ (onClick where_ None) = None
  /\ onClick where_ (onClick where_ (Some where_)) = Some where_.
Proof.
  assert (Hclosed : None <> Some where_) by discriminate.
  assert (Hopen : Some where_ = Some where_) by reflexivity.
  split; [split; assumption|].
  split; [exact (proj1 (C6_radio_toggle where_ None) Hclosed)|].
  split;
    [exact (proj1 (proj2 (C6_radio_toggle where_ (Some where_))) Hopen)|].
  split;
    [exact (proj1 (proj2 (proj2 (proj2 (C6_radio_toggle where_ None))))
              Hclosed)|].
  exact (proj1 (proj2 (proj2 (proj2 (proj2
           (C6_radio_toggle where_ (Some where_)))))) Hopen).
Defined.

(** ** Mount *)

(** C7: on mount the filter drawer is open exactly when the validator
    accepts the [where] expression the current query carries, and no
    drawer is open otherwise.  For a query whose [where] is [w], and for a
    missing query, whose [where] reads as [undefined]: the state is
    ['where'] or [undefined], the filter region has height [auto] exactly
    in the first case, the other two regions have height [0], the number
    of open regions is one or none whatever the props, and the first
    effect leaves the drawer as it is. *)
Theorem C7_initial_drawer
  (Where : Type) (validateWhereQuery : option Where -> bool) (p : Props) :
  (forall w : option Where,
      let visibleDrawer :=
        initialVisibleDrawer Where validateWhereQuery
          (Some {| where_param := w |}) in
      (visibleDrawer = Some where_ <-> validateWhereQuery w = true)
      /\ (visibleDrawer = None <-> validateWhereQuery w = false)
      /\ (height_of visibleDrawer where_ = auto
          <-> validateWhereQuery w = true)
      /\ height_of visibleDrawer columns = px 0
      /\ height_of visibleDrawer sort = px 0
      /\ open_count p visibleDrawer
         = (if validateWhereQuery w then 1 else 0)%nat)
  /\ (let visibleDrawer :=
        initialVisibleDrawer Where validateWhereQuery None in
      (visibleDrawer = Some where_ <-> validateWhereQuery None = true)
      /\ (visibleDrawer = None <-> validateWhereQuery None = false)
      /\ (height_of visibleDrawer where_ = auto
          <-> validateWhereQuery None = true)
      /\ height_of visibleDrawer columns = px 0
      /\ height_of visibleDrawer sort = px 0
      /\ open_count p visibleDrawer
         = (if validateWhereQuery None then 1 else 0)%nat)
  /\ (forall (query later : option (Query Where)) (hasWhereParam : bool),
        fst (effect_where Where later
               (initialVisibleDrawer Where validateWhereQuery query,
                hasWhereParam))
        = initialVisibleDrawer Where validateWhereQuery query).
Proof.
  assert (Hcount : forall b : bool,
            open_count p (if b then Some where_ else None)
            = (if b then 1 else 0)%nat).
  { intros [|]; destruct p as [[|] [|]]; reflexivity. }
  split; [|split].
  - intros w. cbv zeta.
    unfold initialVisibleDrawer, shouldInitializeWhereOpened.
    cbn [query_where where_param]. rewrite Hcount.
    destruct (validateWhereQuery w); cbn;
      repeat split; try congruence; discriminate.
  - cbv zeta.
    unfold initialVisibleDrawer, shouldInitializeWhereOpened.
    cbn [query_where]. rewrite Hcount.
    destruct (validateWhereQuery None); cbn;
      repeat split; try congruence; discriminate.
  - intros query later hasWhereParam. unfold effect_where.
    destruct hasWhereParam, (is_some (query_where Where later)); reflexivity.
Qed.

(** ** The search label *)

Section SearchLabelLemmas.

Variable I18n : Type.
Variable t : string -> list (string * value) -> string.
Variable getTranslation : Label -> I18n -> value.

Lemma append_assoc (a b c : string) : (a ++ b) ++ c = a ++ b ++ c.
Proof. induction a as [|x a IH]; cbn; [reflexivity | now rewrite IH]. Qed.

(** The fold behind the first field: commas up to the last field, the
    translated "or" before it. *)
Lemma reduce_from_tail (fields middle : list Field) (last : Field)
  (i18n : I18n) :
  forall (i : Z) (placeholderText : string),
    0 < i ->
    i + Z.of_nat (List.length middle) = Z.of_nat (List.length fields) - 1 ->
    reduce_from (placeholder I18n t getTranslation fields i18n)
      (middle ++ [last]) i placeholderText
    = placeholderText
        ++ commaSeparated I18n getTranslation i18n middle
        ++ " " ++ t "general:or" [] ++ " "
        ++ to_string (getTranslation (fieldLabel last) i18n).
Proof.
  induction middle as [|f middle IH]; intros i placeholderText Hi Hlen.
  - cbn [app reduce_from commaSeparated List.length] in *.
    unfold placeholder.
    destruct (Z.eqb_spec i 0) as [E|_]; [lia|].
    destruct (Z.eqb_spec i (Z.of_nat (List.length fields) - 1)) as [_|N];
      [reflexivity | lia].
  - cbn [app reduce_from commaSeparated List.length] in *.
    rewrite IH by lia.
    unfold placeholder at 1.
    destruct (Z.eqb_spec i 0) as [E|_]; [lia|].
    destruct (Z.eqb_spec i (Z.of_nat (List.length fields) - 1)) as [E|_];
      [lia|].
    rewrite !append_assoc. reflexivity.
Qed.

End SearchLabelLemmas.

(** C8: with a non-empty list of searchable fields the label joins the
    fields' labels: the first label is wrapped in the translated "search
    by" text (alone, when it is the only one), every label in between is
    appended behind a comma, and the last label behind the translated
    "or".  The label of a field is its [label] when that is a non-empty
    string, a record or a function, and its name when the field has no
    label (no key, or [undefined], [null], [false] or the empty string).
    With an empty or missing list the label is the "search by" text around
    the title field's label, or around ['ID'] when there is no title field
    or when the translation of its label is [undefined] or [null]; the
    label of the title field is its [label] when that is a string or an
    object, and its name otherwise. *)
Theorem C8_search_label
  (I18n : Type) (t : string -> list (string * value) -> string)
  (getTranslation : Label -> I18n -> value)
  (titleField : option Field) (i18n : I18n) :
  let searchBy (l : value) := t "general:searchBy" [("label", l)] in
  let translated := searchLabelTranslated I18n t getTranslation in
  let title := searchLabel I18n getTranslation in
  (forall first,
      translated (Some [first]) titleField i18n
      = searchBy (getTranslation (fieldLabel first) i18n))
  /\ (forall first middle last,
        translated (Some (first :: middle ++ [last])) titleField i18n
        = searchBy (getTranslation (fieldLabel first) i18n)
            ++ commaSeparated I18n getTranslation i18n middle
            ++ " " ++ t "general:or" [] ++ " "
            ++ to_string (getTranslation (fieldLabel last) i18n))
  /\ (forall s n, s <> "" ->
        fieldLabel {| label := Some (Lstring s); name := n |} = Lstring s)
  /\ (forall r n,
        fieldLabel {| label := Some (Lrecord r); name := n |} = Lrecord r)
  /\ (forall id n,
        fieldLabel {| label := Some (Lfunction id); name := n |}
        = Lfunction id)
  /\ (forall l n, In l [Lundefined; Lnull; Lfalse; Lstring ""] ->
        fieldLabel {| label := Some l; name := Some n |} = Lstring n)
  /\ (forall n, fieldLabel {| label := None; name := Some n |} = Lstring n)
  /\ translated (Some []) titleField i18n
     = searchBy (getTranslation (Lstring (title titleField i18n)) i18n)
  /\ translated None titleField i18n
     = searchBy (getTranslation (Lstring (title titleField i18n)) i18n)
  /\ title None i18n = "ID"
  /\ (forall f, getTranslation (titleLabel f) i18n = undefined
                \/ getTranslation (titleLabel f) i18n = null ->
                title (Some f) i18n = "ID")
  /\ (forall f s, getTranslation (titleLabel f) i18n = str s ->
                  title (Some f) i18n = s)
  /\ (forall l n, (exists s, l = Lstring s) \/ (exists r, l = Lrecord r)
                  \/ l = Lnull ->
        titleLabel {| label := Some l; name := n |} = l)
  /\ (forall l n, In l [Lundefined; Lfalse] \/ (exists id, l = Lfunction id) ->
        titleLabel {| label := Some l; name := Some n |} = Lstring n)
  /\ (forall n, titleLabel {| label := None; name := Some n |} = Lstring n).
Proof.
  cbv zeta.
  split; [reflexivity|].
  split.
  { intros first middle last.
    unfold searchLabelTranslated.
    replace (0 <? Z.of_nat (List.length (first :: middle ++ [last])))
      with true by (cbn [List.length]; symmetry; apply Z.ltb_lt; lia).
    unfold reduce. cbn [reduce_from].
    rewrite reduce_from_tail.
    - reflexivity.
    - lia.
    - cbn [List.length]. rewrite List.length_app. cbn [List.length]. lia. }
  split.
  { intros s n Hs. cbn.
    destruct (String.eqb_spec s ""); [contradiction | reflexivity]. }
  split; [intros r n; reflexivity|].
  split; [intros id n; reflexivity|].
  split.
  { intros l n [<- | [<- | [<- | [<- | []]]]]; reflexivity. }
  split; [intros n; reflexivity|].
  split; [reflexivity|].
  split; [reflexivity|].
  split; [reflexivity|].
  split.
  { intros f [E | E]; unfold searchLabel; rewrite E; reflexivity. }
  split.
  { intros f s E. unfold searchLabel. rewrite E. reflexivity. }
  split.
  { intros l n [(s & ->) | [(r & ->) | ->]]; reflexivity. }
  split.
  { intros l n [[<- | [<- | []]] | (id & ->)]; reflexivity. }
  intros n; reflexivity.
Qed.

(** The label on three searchable fields, with an English translation
    provider: the second field has no label and shows its name. *)
Example search_label_three_fields :
  let t (key : string) (vars : list (string * value)) : string :=
    if String.eqb key "general:searchBy" then
      "Search by " ++ match vars with
                      | (_, l) :: _ => to_string l
                      | [] => ""
                      end
    else if String.eqb key "general:or" then "or"
    else key in
  let getTranslation (l : Label) (_ : unit) : value :=
    match l with
    | Lstring s => str s
    | _ => undefined
    end in
  searchLabelTranslated unit t getTranslation
    (Some [ {| label := Some (Lstring "Title"); name := Some "title" |};
            {| label := None; name := Some "slug" |};
            {| label := Some (Lstring "Author"); name := Some "author" |} ])
    None tt
  = "Search by Title, slug or Author".
Proof. reflexivity. Qed.

(** Without searchable fields, a title field whose label is a record
    without an entry is translated to [undefined], and the label falls
    back to ['ID']. *)
Example search_label_untranslated_title :
  let t (key : string) (vars : list (string * value)) : string :=
    if String.eqb key "general:searchBy" then
      "Search by " ++ match vars with
                      | (_, l) :: _ => to_string l
                      | [] => ""
                      end
    else key in
  let getTranslation (l : Label) (_ : unit) : value :=
    match l with
    | Lstring s => str s
    | _ => undefined
    end in
  searchLabelTranslated unit t getTranslation (Some [])
    (Some {| label := Some (Lrecord []); name := Some "title" |}) tt
  = "Search by ID".
Proof. reflexivity. Qed.

(** * Further properties of the parser *)

Section ParserShape.

(** Every string keeps its ['#']s in front, or splits at a last ['#']
    behind a non-empty prefix. *)
Lemma whole_or_split (s : string) :
  no_hash_after_first s
  \/ exists before after : string,
       s = before ++ String "#" after /\ before <> "" /\ hash_free after.
Proof.
  destruct (last_hash_decompose s) as [Hfree | (before & after & -> & Hfree)].
  - left. intros i _. apply Hfree.
  - destruct before as [|b before].
    + left. intros [|i] Hi; [lia | apply (Hfree i)].
    + right. exists (String b before), after.
      split; [reflexivity | split; [discriminate | assumption]].
Qed.

(** An object descriptor whose [path] is a string without a ['#'] behind
    its first character; the path may be empty. *)
Lemma parse_object_whole (s : string) (field : value) :
  no_hash_after_first s ->
  parsePayloadComponent (PCobject (Raw.mk (str s) field))
  = Normal (Some {| exportName := if truthy field then field
                                  else str "default";
                    path := str s |}).
Proof.
  intros Hno. unfold parsePayloadComponent.
  cbn [to_boolean negb get_path Raw.path bind optional_call
       nullish_coalesce method_call].
  pose proof (lastIndexOf_no_hash_after_first s Hno) as Hle.
  destruct (Z.ltb_spec 0 (lastIndexOf s "#")) as [Hlt|_]; [lia|].
  reflexivity.
Qed.

Lemma prefix_append (a b : string) : prefix a (a ++ b) = true.
Proof. apply prefix_correct. apply substring_take. Qed.

Lemma prefix_refl (a : string) : prefix a a = true.
Proof. apply prefix_correct. apply substring_all. Qed.

Lemma hash_free_default : hash_free "default".
Proof. intros i. do 8 (destruct i as [|i]; [discriminate|]). discriminate. Qed.

Lemma truthy_is_string (v : value) :
  truthy v = true -> exists name : string, v = str name /\ name <> "".
Proof.
  destruct v as [| |name]; cbn; try discriminate.
  destruct (String.eqb_spec name ""); [discriminate|].
  intros _. exists name. split; [reflexivity | assumption].
Qed.

(** The result for an object is built in two steps: a path and a suffix
    that the [path] field alone decides, then the [exportName] field in
    place of the suffix when it is truthy. *)
Lemma parse_object_two_steps (p : value) :
  exists (path' suffix : value),
    (exists e : string, suffix = str e)
    /\ forall field : value,
         parsePayloadComponent (PCobject (Raw.mk p field))
         = Normal (Some {| exportName := if truthy field then field
                                         else suffix;
                           path := path' |}).
Proof.
  destruct p as [| |s].
  - exists undefined, (str "default"). split; [eexists; reflexivity|].
    intros field.
    apply (parse_object_nullish_path (Raw.mk undefined field)).
    left; reflexivity.
  - exists null, (str "default"). split; [eexists; reflexivity|].
    intros field.
    apply (parse_object_nullish_path (Raw.mk null field)).
    right; reflexivity.
  - destruct (whole_or_split s) as [Hno | (before & after & -> & Hne & Hfree)].
    + exists (str s), (str "default"). split; [eexists; reflexivity|].
      intros field. apply parse_object_whole; assumption.
    + exists (str before), (str after). split; [eexists; reflexivity|].
      intros field. apply parse_object_split; assumption.
Qed.

End ParserShape.

(** An object descriptor whose [exportName] is missing, [null] or empty is
    parsed like its [path] string, as long as that string is not empty. *)
Theorem object_without_name_parses_like_its_path
  (s : string) (field : value) :
  s <> "" -> truthy field = false ->
  parsePayloadComponent (PCobject (Raw.mk (str s) field))
  = parsePayloadComponent (PCstring s).
Proof.
  intros Hne Hfield.
  destruct (whole_or_split s) as [Hno | (before & after & -> & Hb & Hfree)].
  - rewrite parse_object_whole, parse_string_whole by assumption.
    rewrite Hfield. reflexivity.
  - rewrite parse_object_split, parse_string_split by assumption.
    rewrite Hfield. reflexivity.
Qed.

Lemma object_without_name_parses_like_its_path_witness :
  ("a/b#X" <> "" /\ truthy null = false)
  /\ parsePayloadComponent (PCobject (Raw.mk (str "a/b#X") null))
     = parsePayloadComponent (PCstring "a/b#X").
Proof.
  assert (Hne : "a/b#X" <> "") by discriminate.
  assert (Hf : truthy null = false) by reflexivity.
  split; [split; assumption|].
  exact (object_without_name_parses_like_its_path "a/b#X" null Hne Hf).
Defined.

(** The export name of a result is always a string, never [undefined] or
    [null], whatever the descriptor's fields hold. *)
Theorem resolved_exportName_is_a_string
  (c : PayloadComponent) (r : Resolved) :
  parsePayloadComponent c = Normal (Some r) ->
  exists e : string, exportName r = str e.
Proof.
  intros Hparse.
  destruct c as [| | |s|[p field]]; try discriminate.
  - destruct (String.eqb_spec s "") as [-> | Hne]; [discriminate|].
    destruct (whole_or_split s) as [Hno | (before & after & -> & Hb & Hfree)].
    + rewrite parse_string_whole in Hparse by assumption.
      injection Hparse as <-. eexists; reflexivity.
    + rewrite parse_string_split in Hparse by assumption.
      injection Hparse as <-. eexists; reflexivity.
  - destruct (parse_object_two_steps p) as (path' & suffix & [e ->] & Hall).
    rewrite Hall in Hparse. injection Hparse as <-. cbn.
    destruct (truthy field) eqn:Ht.
    + destruct (truthy_is_string field Ht) as (name & -> & _).
      eexists; reflexivity.
    + eexists; reflexivity.
Qed.

Lemma resolved_exportName_is_a_string_witness :
  parsePayloadComponent (PCobject (Raw.mk null null))
  = Normal (Some {| exportName := str "default"; path := null |})
  /\ exists e : string,
       exportName {| exportName := str "default"; path := null |} = str e.
Proof.
  split; [reflexivity|].
  exact (resolved_exportName_is_a_string (PCobject (Raw.mk null null))
           {| exportName := str "default"; path := null |} eq_refl).
Defined.

(** For a string descriptor the path of the result is a non-empty string
    and a prefix of the descriptor. *)
Theorem string_path_is_nonempty_prefix (s : string) (r : Resolved) :
  parsePayloadComponent (PCstring s) = Normal (Some r) ->
  exists p : string, path r = str p /\ p <> "" /\ prefix p s = true.
Proof.
  intros Hparse.
  destruct (String.eqb_spec s "") as [-> | Hne]; [discriminate|].
  destruct (whole_or_split s) as [Hno | (before & after & -> & Hb & Hfree)].
  - rewrite parse_string_whole in Hparse by assumption.
    injection Hparse as <-. exists s.
    split; [reflexivity | split; [assumption | apply prefix_refl]].
  - rewrite parse_string_split in Hparse by assumption.
    injection Hparse as <-. exists before.
    split; [reflexivity | split; [assumption | apply prefix_append]].
Qed.

Lemma string_path_is_nonempty_prefix_witness :
  parsePayloadComponent (PCstring "a#b#c")
  = Normal (Some {| exportName := str "c"; path := str "a#b" |})
  /\ exists p : string,
       path {| exportName := str "c"; path := str "a#b" |} = str p
       /\ p <> "" /\ prefix p "a#b#c" = true.
Proof.
  split; [reflexivity|].
  exact (string_path_is_nonempty_prefix "a#b#c"
           {| exportName := str "c"; path := str "a#b" |} eq_refl).
Defined.

(** For a string descriptor nothing is lost: the export name holds no
    ['#'], and either the separator was used and [path#exportName] is the
    descriptor again, or the path is the whole descriptor and the export
    name is ["default"]. *)
Theorem string_result_reassembles (s : string) (r : Resolved) :
  parsePayloadComponent (PCstring s) = Normal (Some r) ->
  exists p e : string,
    path r = str p /\ exportName r = str e /\ hash_free e
    /\ (s = p ++ "#" ++ e \/ (s = p /\ e = "default")).
Proof.
  intros Hparse.
  destruct (String.eqb_spec s "") as [-> | Hne]; [discriminate|].
  destruct (whole_or_split s) as [Hno | (before & after & -> & Hb & Hfree)].
  - rewrite parse_string_whole in Hparse by assumption.
    injection Hparse as <-. exists s, "default".
    repeat split; [apply hash_free_default | right; split; reflexivity].
  - rewrite parse_string_split in Hparse by assumption.
    injection Hparse as <-. exists before, after.
    repeat split; [assumption | left; reflexivity].
Qed.

Lemma string_result_reassembles_witness :
  parsePayloadComponent (PCstring "a#b#c")
  = Normal (Some {| exportName := str "c"; path := str "a#b" |})
  /\ exists p e : string,
       path {| exportName := str "c"; path := str "a#b" |} = str p
       /\ exportName {| exportName := str "c"; path := str "a#b" |} = str e
       /\ hash_free e
       /\ ("a#b#c" = p ++ "#" ++ e \/ ("a#b#c" = p /\ e = "default")).
Proof.
  split; [reflexivity|].
  exact (string_result_reassembles "a#b#c"
           {| exportName := str "c"; path := str "a#b" |} eq_refl).
Defined.

(** An object descriptor is never answered with [null] and never throws,
    and its result is resolved in two steps: the [path] field alone decides
    the path and a string suffix, and the export name is the [exportName]
    field when that is a non-empty string, the suffix otherwise. *)
Theorem object_resolved_in_two_steps (p : value) :
  exists (path' suffix : value),
    (exists e : string, suffix = str e)
    /\ (forall field : value,
          truthy field = false ->
          parsePayloadComponent (PCobject (Raw.mk p field))
          = Normal (Some {| exportName := suffix; path := path' |}))
    /\ (forall name : string,
          name <> "" ->
          parsePayloadComponent (PCobject (Raw.mk p (str name)))
          = Normal (Some {| exportName := str name; path := path' |})).
Proof.
  destruct (parse_object_two_steps p) as (path' & suffix & Hs & Hall).
  exists path', suffix. split; [assumption|]. split.
  - intros field Hf. rewrite Hall, Hf. reflexivity.
  - intros name Hname. rewrite Hall. cbn.
    destruct (String.eqb_spec name ""); [contradiction | reflexivity].
Qed.

(** A pair whose path has no ['#'] behind its first character and whose
    export name is not empty is a fixed point: handed back as an object
    descriptor, it is returned unchanged. *)
Theorem resolved_pair_is_fixed_point (p e : string) :
  no_hash_after_first p -> e <> "" ->
  parsePayloadComponent (PCobject (Raw.mk (str p) (str e)))
  = Normal (Some {| exportName := str e; path := str p |}).
Proof.
  intros Hno He. rewrite parse_object_whole by assumption. cbn.
  destruct (String.eqb_spec e ""); [contradiction | reflexivity].
Qed.

Lemma resolved_pair_is_fixed_point_witness :
  (no_hash_after_first "a" /\ "X" <> "")
  /\ parsePayloadComponent (PCobject (Raw.mk (str "a") (str "X")))
     = Normal (Some {| exportName := str "X"; path := str "a" |}).
Proof.
  assert (Hno : no_hash_after_first "a").
  { intros i Hi. do 2 (destruct i as [|i]; [first [lia | discriminate]|]).
    discriminate. }
  assert (He : "X" <> "") by discriminate.
  split; [split; assumption|].
  exact (resolved_pair_is_fixed_point "a" "X" Hno He).
Defined.

(** * Further properties of the list controls *)

Section DrawerReachability.

Lemma where_toggle_always_rendered (p : Props) : In where_ (toggles p).
Proof. destruct p as [[|] [|]]; cbn; auto. Qed.

Lemma onClick_cases (d : Drawer) (s : option Drawer) :
  onClick d s = Some d \/ onClick d s = None.
Proof. destruct d, s as [[| |]|]; cbn; auto. Qed.

(** The states clicks lead to name a rendered toggle or no drawer. *)
Lemma reachable_shape (p : Props) (init s : option Drawer) :
  reachable p init s ->
  s = init \/ s = None \/ exists d, s = Some d /\ In d (toggles p).
Proof.
  induction 1 as [|s s' _ _ Hclick].
  - left; reflexivity.
  - destruct Hclick as [d s Hd].
    destruct (onClick_cases d s) as [-> | ->].
    + right; right. exists d. split; [reflexivity | assumption].
    + right; left; reflexivity.
Qed.

Lemma reachable_open (p : Props) (init : option Drawer) (d : Drawer) :
  In d (toggles p) -> reachable p init (Some d).
Proof.
  intros Hd.
  assert (Hstep : forall s, s <> Some d -> reachable p init s ->
                            reachable p init (Some d)).
  { intros s Hs Hreach.
    rewrite <- (onClick_other d s Hs).
    apply (reach_click p init s _ Hreach). constructor. assumption. }
  destruct init as [i|].
  - destruct (Drawer_eqb_spec i d) as [-> | Hid].
    + apply reach_init.
    + apply (Hstep (Some i)); [congruence | apply reach_init].
  - apply (Hstep None); [discriminate | apply reach_init].
Qed.

Lemma reachable_closed (p : Props) (init : option Drawer) :
  reachable p init None.
Proof.
  pose proof (where_toggle_always_rendered p) as Hw.
  rewrite <- (onClick_same where_).
  apply (reach_click p init (Some where_)).
  - apply reachable_open. assumption.
  - constructor. assumption.
Qed.

(** How many regions a render shows open: one when the state names a
    drawer whose region is rendered, none otherwise. *)
Lemma open_count_rendered (p : Props) (d : Drawer) :
  In d (toggles p) -> open_count p (Some d) = 1%nat.
Proof.
  destruct p as [[|] [|]], d; cbn; intros H;
    repeat (destruct H as [H|H]; try discriminate H); try reflexivity;
    contradiction.
Qed.

Lemma open_count_not_rendered (p : Props) (d : Drawer) :
  ~ In d (toggles p) -> open_count p (Some d) = 0%nat.
Proof.
  destruct p as [[|] [|]], d; cbn; intros H; try reflexivity;
    exfalso; apply H; auto.
Qed.

End DrawerReachability.

(** Three clicks on the same toggle do what one click does: the toggle
    alternates with period two from every state. *)
Theorem three_clicks_are_one (d : Drawer) (s : option Drawer) :
  onClick d (onClick d (onClick d s)) = onClick d s.
Proof.
  destruct (onClick_cases d s) as [E | E]; rewrite E.
  - rewrite onClick_same. apply onClick_other. discriminate.
  - rewrite (onClick_other d None) by discriminate. apply onClick_same.
Qed.

(** The states a panel can be brought to by clicks are exactly its first
    state, no drawer, and the drawers whose toggle is rendered: a drawer
    whose toggle is switched off by the props is never opened by a click,
    and the filter drawer, whose toggle is always rendered, can always be
    opened. *)
Theorem reachable_states (p : Props) (init s : option Drawer) :
  (reachable p init s
   <-> s = init \/ s = None \/ exists d, s = Some d /\ In d (toggles p))
  /\ reachable p init (Some where_).
Proof.
  split.
  - split.
    + apply reachable_shape.
    + intros [-> | [-> | (d & -> & Hd)]].
      * apply reach_init.
      * apply reachable_closed.
      * apply reachable_open. assumption.
  - apply reachable_open, where_toggle_always_rendered.
Qed.

(** From mount on, what is shown agrees with the state: in every state
    reached by clicks exactly one region is open when the state names a
    drawer, and none when it names no drawer. *)
Theorem open_regions_follow_state
  (Where : Type) (validateWhereQuery : option Where -> bool)
  (query : option (Query Where)) (p : Props) (s : option Drawer) :
  reachable p (initialVisibleDrawer Where validateWhereQuery query) s ->
  open_count p s = match s with
                   | Some _ => 1%nat
                   | None => 0%nat
                   end.
Proof.
  intros Hreach.
  assert (Hshape : s = None \/ exists d, s = Some d /\ In d (toggles p)).
  { destruct (reachable_shape _ _ _ Hreach) as [-> | [-> | H]]; auto.
    unfold initialVisibleDrawer.
    destruct (shouldInitializeWhereOpened Where validateWhereQuery query);
      [right | left; reflexivity].
    exists where_. split; [reflexivity | apply where_toggle_always_rendered]. }
  destruct Hshape as [-> | (d & -> & Hd)].
  - destruct p as [[|] [|]]; reflexivity.
  - apply open_count_rendered. assumption.
Qed.

Lemma open_regions_follow_state_witness :
  reachable defaultProps
    (initialVisibleDrawer unit (fun _ => true) None) (Some columns)
  /\ open_count defaultProps (Some columns) = 1%nat.
Proof.
  assert (Hreach : reachable defaultProps
                     (initialVisibleDrawer unit (fun _ => true) None)
                     (Some columns)).
  { apply (reach_click defaultProps _ (Some where_) (Some columns)).
    - apply reach_init.
    - apply (click_toggle defaultProps columns (Some where_)).
      left; reflexivity. }
  split; [exact Hreach|].
  exact (open_regions_follow_state unit (fun _ => true) None defaultProps
           (Some columns) Hreach).
Defined.

(** A state that names a drawer whose region the props switch off shows no
    region open; such a state is the only way for the shown regions to
    disagree with the state. *)
Theorem open_count_exact (p : Props) (s : option Drawer) :
  (open_count p s = 1%nat <-> exists d, s = Some d /\ In d (toggles p))
  /\ (open_count p s = 0%nat
      <-> s = None \/ exists d, s = Some d /\ ~ In d (toggles p)).
Proof.
  destruct s as [d|].
  - destruct (in_dec (fun a b => reflect_dec _ _ (Drawer_eqb_spec a b))
                d (toggles p)) as [Hin | Hout].
    + rewrite (open_count_rendered p d Hin). split; split.
      * intros _. exists d. split; [reflexivity | assumption].
      * reflexivity.
      * discriminate.
      * intros [E | (d' & E & Hd')]; [discriminate|].
        injection E as <-. contradiction.
    + rewrite (open_count_not_rendered p d Hout). split; split.
      * discriminate.
      * intros (d' & E & Hd'). injection E as <-. contradiction.
      * intros _. right. exists d. split; [reflexivity | assumption].
      * reflexivity.
  - assert (E : open_count p None = 0%nat)
      by (destruct p as [[|] [|]]; reflexivity).
    rewrite E. split; split.
    + discriminate.
    + intros (d & Hd & _). discriminate.
    + intros _. left; reflexivity.
    + reflexivity.
Qed.

(** ** The ref [hasWhereParam] *)

Section RefLemmas.

Variable Where : Type.

(** Whatever the ref held, one run of the effect leaves it saying whether
    the query has a [where]. *)
Lemma effect_where_ref (query : option (Query Where))
  (visibleDrawer : option Drawer) (hasWhereParam : bool) :
  snd (effect_where Where query (visibleDrawer, hasWhereParam))
  = is_some (query_where Where query).
Proof.
  unfold effect_where.
  destruct hasWhereParam, (is_some (query_where Where query)); reflexivity.
Qed.

Lemma hasWhereParam_after_snoc (queries : list (option (Query Where)))
  (query : option (Query Where)) (hasWhereParam : bool) :
  hasWhereParam_after Where (queries ++ [query]) hasWhereParam
  = is_some (query_where Where query).
Proof.
  unfold hasWhereParam_after. rewrite List.fold_left_app. cbn [List.fold_left].
  apply effect_where_ref.
Qed.

End RefLemmas.

(** The ref [hasWhereParam] always says whether the latest query has a
    [where]: after the effect has run for any sequence of queries, it holds
    what it would hold had the component been mounted on the last of
    them. *)
Theorem hasWhereParam_tracks_latest_query
  (Where : Type) (first : option (Query Where))
  (queries : list (option (Query Where))) :
  hasWhereParam_after Where queries (initialHasWhereParam Where first)
  = initialHasWhereParam Where (List.last queries first).
Proof.
  destruct queries as [|q queries]; [reflexivity|].
  destruct (@List.exists_last _ (q :: queries)) as (front & latest & ->);
    [discriminate|].
  rewrite hasWhereParam_after_snoc, List.last_last. reflexivity.
Qed.

(** ** The rendered toggles and regions *)

Section RenderLemmas.

(** The rendered elements are those of the drawer model: the pills are the
    toggles with their click results, the regions carry the heights. *)
Lemma render_agrees_with_model (p : Props) (s : option Drawer) :
  List.map setsVisibleDrawer (renderPills p s)
  = List.map (fun d => onClick d s) (toggles p)
  /\ List.map regionHeight (renderRegions p s) = List.map snd (regions p s)
  /\ List.map fst (regions p s) = toggles p.
Proof. destruct p as [[|] [|]]; repeat split; reflexivity. Qed.

End RenderLemmas.

(** Each rendered toggle has its region, in the same order: the pill's
    [aria-controls] is the region's [id], its [aria-expanded] is true
    exactly when the region has height [auto], and its chevron, where it
    is given a direction, points up exactly then; the ids of the rendered
    regions are pairwise different. *)
Theorem pills_match_regions (p : Props) (s : option Drawer) :
  Forall2
    (fun pill region =>
       ariaControls pill = regionId region
       /\ (ariaExpanded pill = true <-> regionHeight region = auto)
       /\ (iconDirection pill = Some up -> ariaExpanded pill = true)
       /\ (iconDirection pill = Some down -> ariaExpanded pill = false))
    (renderPills p s) (renderRegions p s)
  /\ NoDup (List.map regionId (renderRegions p s)).
Proof.
  split.
  - destruct p as [[|] [|]]; cbn [renderPills renderRegions enableColumns
                                   enableSort app];
      repeat constructor;
      cbn [ariaControls regionId ariaExpanded regionHeight iconDirection];
      try (destruct (strict_eq s _); intros; congruence).
  - destruct p as [[|] [|]]; cbn;
      repeat constructor; cbn; intuition discriminate.
Qed.

(** After a click on a rendered toggle, a region is open exactly when it
    is the one the toggle controls and it was collapsed before the click:
    a click collapses every other region, and collapses its own when that
    was open. *)
Theorem click_opens_only_its_region
  (p : Props) (s : option Drawer) (pill : PillProps) (region : RegionProps) :
  In pill (renderPills p s) ->
  In region (renderRegions p (setsVisibleDrawer pill)) ->
  (regionHeight region = auto
   <-> regionId region = ariaControls pill /\ ariaExpanded pill = false).
Proof.
  intros Hpill Hregion.
  destruct p as [[|] [|]], s as [[| |]|]; cbn in Hpill;
    repeat (destruct Hpill as [Hpill | Hpill]; [subst pill|]);
    try contradiction;
    cbn in Hregion;
    repeat (destruct Hregion as [Hregion | Hregion]; [subst region|]);
    try contradiction;
    cbn; split; intros H; try discriminate H;
    try (split; reflexivity);
    destruct H as [H1 H2]; try discriminate H1; try discriminate H2.
Qed.

Lemma click_opens_only_its_region_witness :
  (In (mkPill "list-controls-where" true "list-controls__toggle-where"
         (Some up) None)
      (renderPills defaultProps (Some where_))
   /\ In (mkRegion "list-controls__where" (px 0) "list-controls-where")
        (renderRegions defaultProps None))
  /\ (px 0 = auto <-> "list-controls-where" = "list-controls-where"
                      /\ true = false).
Proof.
  assert (Hpill : In (mkPill "list-controls-where" true
                        "list-controls__toggle-where" (Some up) None)
                    (renderPills defaultProps (Some where_))).
  { right; left; reflexivity. }
  assert (Hregion : In (mkRegion "list-controls__where" (px 0)
                          "list-controls-where")
                      (renderRegions defaultProps None)).
  { right; left; reflexivity. }
  split; [split; assumption|].
  exact (click_opens_only_its_region defaultProps (Some where_) _ _
           Hpill Hregion).
Defined.

(** ** The two label rules *)

(** The rule for the title field and the rule for a searchable field pick
    different labels for the same field in exactly three cases: a label
    that is a function (the title rule falls back to the name, the field
    rule keeps it), a label that is the empty string on a field whose name
    is not the empty string too (the title rule keeps the label, the field
    rule falls back), and a [null] label on a field that has a name. *)
Theorem label_rules_differ_iff (f : Field) :
  titleLabel f <> fieldLabel f
  <-> (exists id, label f = Some (Lfunction id))
      \/ (label f = Some (Lstring "") /\ name f <> Some "")
      \/ (label f = Some Lnull /\ name f <> None).
Proof.
  destruct f as [[l|] n]; cbn [titleLabel fieldLabel label name].
  - destruct l as [| | |s|r|id]; cbn.
    + split; [intros H; contradiction H; reflexivity|].
      intros [(id & E) | [(E & _) | (E & _)]]; discriminate E.
    + destruct n as [n|]; split.
      * intros _. right; right. split; [reflexivity | discriminate].
      * intros _. discriminate.
      * intros H; contradiction H; reflexivity.
      * intros [(id & E) | [(E & _) | (_ & E)]]; try discriminate E.
        contradiction E; reflexivity.
    + split; [intros H; contradiction H; reflexivity|].
      intros [(id & E) | [(E & _) | (E & _)]]; discriminate E.
    + destruct (String.eqb_spec s "") as [-> | Hs]; cbn; split.
      * intros H. right; left. split; [reflexivity|].
        intros ->. apply H. reflexivity.
      * intros [(id & E) | [(_ & Hn) | (E & _)]]; try discriminate E.
        destruct n as [n|]; [|discriminate]. congruence.
      * intros H; contradiction H; reflexivity.
      * intros [(id & E) | [(E & _) | (E & _)]]; try discriminate E.
        injection E as ->. contradiction Hs; reflexivity.
    + split; [intros H; contradiction H; reflexivity|].
      intros [(id & E) | [(E & _) | (E & _)]]; discriminate E.
    + split.
      * intros _. left. exists id. reflexivity.
      * intros _. destruct n; discriminate.
  - split; [intros H; contradiction H; reflexivity|].
    intros [(id & E) | [(E & _) | (E & _)]]; discriminate E.
Qed.
